(** * Scale quantizers of the MOD1 Turing machine firmware

    A shallow embedding of [mod1-turingmachine/scales.h]: the table of measured
    PWM values, the three scale quantizers, and the properties of the
    quantizers on the documented input range [val = 0 .. totalNotes-1].

    C [int] values are modelled as [Z].  The C operators [/] and [%] truncate
    towards zero: they are [Z.quot] and [Z.rem].  On the documented input
    range the octave, the semitone and the index read are shown to stay
    between 0 and 36, well inside any C [int].  A read of [tuningValues] is
    defined only for an index inside the array, so the quantizers return an
    [option]: [None] stands for an out-of-bounds read. *)

From Stdlib Require Import ZArith List Bool Lia Sorted.
Import ListNotations.
Local Open Scope Z_scope.

Module Scales.

(** ** The arrays *)

(** [const int tuningValues[]]: measured PWM values for semitones. *)
Definition tuningValues : list Z :=
  [ 0; 11; 15; 19; 23; 27; 31; 35; 40; 44; 48; 53;
    57; 61; 65; 69; 73; 77; 82; 86; 90; 94; 99; 103;
    107; 112; 116; 120; 124; 128; 132; 137; 141; 145; 149; 153;
    157 ].

(** [sizeof(tuningValues) / sizeof(tuningValues[0])]: the element count. *)
Definition totalNotes : Z := Z.of_nat (length tuningValues).

(** The local arrays of the three functions. *)
Definition majorSteps : list Z := [0; 2; 4; 5; 7; 9; 11].
Definition minorSteps : list Z := [0; 2; 3; 5; 7; 8; 10].
Definition phrygianSteps : list Z := [0; 1; 3; 5; 7; 8; 10].

(** [a[i]] for an [int] index: defined inside the array only. *)
Definition array_get (a : list Z) (i : Z) : option Z :=
  if (0 <=? i) && (i <? Z.of_nat (length a))
  then nth_error a (Z.to_nat i)
  else None.

(** ** The scan loop *)

(** Where a call leaves the function: at the [return] inside the loop, in
    iteration [i], or at the [return] after the loop.  Both carry the index
    at which [tuningValues] is read. *)
Inductive exit_point : Type :=
| ReturnInLoop (i : nat) (index : Z)
| ReturnAfterLoop (index : Z).

Definition exit_index (e : exit_point) : Z :=
  match e with
  | ReturnInLoop _ index => index
  | ReturnAfterLoop index => index
  end.

(** [for (int i = ...; i < ...; i++) if (semitone <= steps[i]) return ...]
    started at [i] with [remaining] iterations left before [i < 7] fails. *)
Fixpoint for_loop (steps : list Z) (octave semitone : Z)
         (i remaining : nat) : option exit_point :=
  match remaining with
  | O => None
  | S remaining' =>
      let step := nth i steps 0 in
      if semitone <=? step
      then Some (ReturnInLoop i (octave * 12 + step))
      else for_loop steps octave semitone (S i) remaining'
  end.

(** The body shared by the three functions, which differ in the array of
    steps and in the literal offset of the last [return]. *)
Definition quantize_exit (steps : list Z) (fallback : Z) (val : Z) : exit_point :=
  let octave := Z.quot val 12 in
  let semitone := Z.rem val 12 in
  match for_loop steps octave semitone 0 7 with
  | Some e => e
  | None => ReturnAfterLoop (octave * 12 + fallback)
  end.

Definition quantize (steps : list Z) (fallback : Z) (val : Z) : option Z :=
  array_get tuningValues (exit_index (quantize_exit steps fallback val)).

(** ** The three quantizers *)

Definition quantizeToMajor (val : Z) : option Z := quantize majorSteps 11 val.
Definition quantizeToMinor (val : Z) : option Z := quantize minorSteps 10 val.
Definition quantizeToPhrygian (val : Z) : option Z := quantize phrygianSteps 10 val.

(** Names for the three functions, to quantify over them. *)
Inductive scale : Type := Major | Minor | Phrygian.

Definition steps_of (s : scale) : list Z :=
  match s with
  | Major => majorSteps
  | Minor => minorSteps
  | Phrygian => phrygianSteps
  end.

Definition fallback_of (s : scale) : Z :=
  match s with
  | Major => 11
  | Minor => 10
  | Phrygian => 10
  end.

Definition quantizer (s : scale) : Z -> option Z :=
  match s with
  | Major => quantizeToMajor
  | Minor => quantizeToMinor
  | Phrygian => quantizeToPhrygian
  end.

Definition quantizer_exit (s : scale) (val : Z) : exit_point :=
  quantize_exit (steps_of s) (fallback_of s) val.

(** ** Vocabulary of the properties *)

(** The documented input range of the quantizers. *)
Definition in_range (val : Z) : Prop := 0 <= val <= totalNotes - 1.

(** [o] is the smallest member of [steps] that is at least [semitone]. *)
Definition smallest_at_or_above (steps : list Z) (semitone o : Z) : Prop :=
  In o steps /\ semitone <= o /\
  Forall (fun o' => semitone <= o' -> o <= o') steps.

(** No member of [steps] is at least [semitone]. *)
Definition none_at_or_above (steps : list Z) (semitone : Z) : Prop :=
  Forall (fun o' => o' < semitone) steps.

(** [o] is the largest member of [steps]. *)
Definition largest_offset (steps : list Z) (o : Z) : Prop :=
  In o steps /\ Forall (fun o' => o' <= o) steps.

(** The offset a quantizer is to snap to: the smallest member at or above
    the semitone when there is one, the largest member otherwise. *)
Definition snap_offset (steps : list Z) (semitone o : Z) : Prop :=
  smallest_at_or_above steps semitone o \/
  (none_at_or_above steps semitone /\ largest_offset steps o).

(** The maximum of a list of offsets (0 for the empty list). *)
Definition max_offset (steps : list Z) : Z := fold_right Z.max 0 steps.

(** [x] is a value of a two's complement [int] of [bits] bits. *)
Definition int_fits (bits : Z) (x : Z) : Prop :=
  - 2 ^ (bits - 1) <= x <= 2 ^ (bits - 1) - 1.

(** Membership of a literal in the input range. *)
Ltac solve_in_range := unfold in_range, totalNotes; cbn; lia.

End Scales.

Import Scales.

(** * Arrays and their reads *)

Lemma totalNotes_value : totalNotes = 37.
Proof. reflexivity. Qed.

Lemma array_get_Some (a : list Z) (i v : Z) :
  array_get a i = Some v <->
  0 <= i < Z.of_nat (length a) /\ nth_error a (Z.to_nat i) = Some v.
Proof.
  unfold array_get.
  destruct (Z.leb_spec 0 i) as [Hlo | Hlo];
    destruct (Z.ltb_spec i (Z.of_nat (length a))) as [Hhi | Hhi]; cbn;
    split; try (intros [? ?]); try discriminate; try lia; auto.
Qed.

Lemma array_get_in_bounds (a : list Z) (i : Z) :
  0 <= i < Z.of_nat (length a) -> exists v, array_get a i = Some v.
Proof.
  intros Hi.
  destruct (nth_error a (Z.to_nat i)) as [v |] eqn:E.
  - exists v. apply array_get_Some. auto.
  - apply nth_error_None in E. lia.
Qed.

(** A strongly sorted list read at two ordered positions. *)
Lemma StronglySorted_nth_error (R : Z -> Z -> Prop) (l : list Z) :
  StronglySorted R l ->
  forall i j a b, (i < j)%nat ->
    nth_error l i = Some a -> nth_error l j = Some b -> R a b.
Proof.
  induction 1 as [| x l Hs IH Hx]; intros i j a b Hij Ha Hb.
  - destruct i; discriminate.
  - destruct j as [| j]; [lia |].
    cbn in Hb. destruct i as [| i]; cbn in Ha.
    + injection Ha as <-. rewrite Forall_forall in Hx.
      apply Hx. eapply nth_error_In; eauto.
    + apply (IH i j); auto. lia.
Qed.

Lemma tuningValues_increasing : StronglySorted Z.lt tuningValues.
Proof.
  apply Sorted_StronglySorted.
  - intros x y z. apply Z.lt_trans.
  - unfold tuningValues. repeat (constructor; try reflexivity).
Qed.

Lemma tuningValues_lt (i j a b : Z) :
  array_get tuningValues i = Some a -> array_get tuningValues j = Some b ->
  i < j -> a < b.
Proof.
  intros Ha Hb Hij.
  apply array_get_Some in Ha as [Hi Ha]. apply array_get_Some in Hb as [Hj Hb].
  apply (StronglySorted_nth_error Z.lt _ tuningValues_increasing
           (Z.to_nat i) (Z.to_nat j)); auto. lia.
Qed.

Lemma tuningValues_le (i j a b : Z) :
  array_get tuningValues i = Some a -> array_get tuningValues j = Some b ->
  i <= j -> a <= b.
Proof.
  intros Ha Hb Hij.
  destruct (Z.eq_dec i j) as [-> | Hne].
  - rewrite Ha in Hb. injection Hb as <-. lia.
  - apply Z.lt_le_incl. apply (tuningValues_lt i j); auto. lia.
Qed.




(** * The scan loop *)

Section ScanLoop.

Variables (steps : list Z) (octave semitone : Z).

(** A return from inside the loop happens at the first position, from the
    start position on, whose step is at or above the semitone. *)
Lemma for_loop_returns (remaining : nat) :
  forall (i : nat) (e : exit_point),
    for_loop steps octave semitone i remaining = Some e ->
    exists j, (i <= j < i + remaining)%nat /\
              e = ReturnInLoop j (octave * 12 + nth j steps 0) /\
              semitone <= nth j steps 0 /\
              forall k, (i <= k < j)%nat -> nth k steps 0 < semitone.
Proof.
  induction remaining as [| r IH]; intros i e H; cbn in H.
  - discriminate.
  - destruct (Z.leb_spec semitone (nth i steps 0)) as [Hle | Hgt].
    + injection H as <-. exists i. repeat split; try lia.
    + destruct (IH _ _ H) as (j & Hj & He & Hs & Hbelow).
      exists j. repeat split; try lia; auto.
      intros k Hk. destruct (Nat.eq_dec k i) as [-> | Hne]; [lia |].
      apply Hbelow. lia.
Qed.

(** The loop falls through only when every step it looked at is below the
    semitone. *)
Lemma for_loop_falls_through (remaining : nat) :
  forall (i : nat),
    for_loop steps octave semitone i remaining = None ->
    forall k, (i <= k < i + remaining)%nat -> nth k steps 0 < semitone.
Proof.
  induction remaining as [| r IH]; intros i H k Hk; cbn in H.
  - lia.
  - destruct (Z.leb_spec semitone (nth i steps 0)) as [Hle | Hgt];
      [discriminate |].
    destruct (Nat.eq_dec k i) as [-> | Hne]; [lia |].
    apply (IH (S i)); auto. lia.
Qed.

(** The loop bound 7 is the length of the array, the steps increase, and
    the offset of the last [return] is their maximum. *)
Variable fallback : Z.
Hypothesis steps_length : length steps = 7%nat.
Hypothesis steps_increasing : StronglySorted Z.lt steps.
Hypothesis fallback_largest : largest_offset steps fallback.

Lemma steps_nth_lt (k j : nat) :
  (k < j < 7)%nat -> nth k steps 0 < nth j steps 0.
Proof.
  intros Hkj.
  apply (StronglySorted_nth_error Z.lt steps steps_increasing k j);
    try lia; apply nth_error_nth'; lia.
Qed.

Lemma scan_snaps (e : exit_point) :
  match for_loop steps octave semitone 0 7 with
  | Some e' => e'
  | None => ReturnAfterLoop (octave * 12 + fallback)
  end = e ->
  exists o, exit_index e = octave * 12 + o /\ snap_offset steps semitone o.
Proof.
  destruct (for_loop steps octave semitone 0 7) as [e' |] eqn:Hloop;
    intros <-.
  - apply for_loop_returns in Hloop as (j & Hj & -> & Hle & Hbelow).
    exists (nth j steps 0). split; [reflexivity |].
    left. repeat split; auto.
    + apply nth_In. lia.
    + apply Forall_forall. intros o' Hin Hle'.
      destruct (In_nth _ _ 0 Hin) as (k & Hk & <-).
      destruct (Nat.lt_trichotomy k j) as [Hlt | [-> | Hgt]].
      * specialize (Hbelow k ltac:(lia)). lia.
      * lia.
      * apply Z.lt_le_incl, steps_nth_lt. lia.
  - exists fallback. split; [reflexivity |].
    right. split; auto.
    apply Forall_forall. intros o' Hin.
    destruct (In_nth _ _ 0 Hin) as (k & Hk & <-).
    apply (for_loop_falls_through _ _ Hloop). lia.
Qed.

End ScanLoop.

(** The snap offset is unique, and it grows with the semitone. *)
Lemma snap_offset_monotone (steps : list Z) (s1 s2 o1 o2 : Z) :
  snap_offset steps s1 o1 -> snap_offset steps s2 o2 -> s1 <= s2 -> o1 <= o2.
Proof.
  unfold snap_offset, smallest_at_or_above, none_at_or_above, largest_offset.
  rewrite !Forall_forall.
  intros [(In1 & Hle1 & Hmin1) | (Hnone1 & In1 & Hmax1)]
         [(In2 & Hle2 & Hmin2) | (Hnone2 & In2 & Hmax2)] Hs.
  - apply Hmin1; auto. lia.
  - apply Hmax2; auto.
  - specialize (Hnone1 _ In2). lia.
  - apply Hmax2; auto.
Qed.

(** * The three scales *)

Lemma steps_length (s : scale) : length (steps_of s) = 7%nat.
Proof. destruct s; reflexivity. Qed.

Lemma steps_increasing (s : scale) : StronglySorted Z.lt (steps_of s).
Proof.
  apply Sorted_StronglySorted.
  - intros x y z. apply Z.lt_trans.
  - destruct s; repeat (constructor; try reflexivity).
Qed.

Lemma steps_bounds (s : scale) : Forall (fun o => 0 <= o <= 11) (steps_of s).
Proof. destruct s; repeat (constructor; try lia). Qed.

Lemma fallback_largest (s : scale) : largest_offset (steps_of s) (fallback_of s).
Proof.
  split.
  - destruct s; cbn; auto 10.
  - destruct s; repeat (constructor; try (cbn; lia)).
Qed.

(** Every call reads [tuningValues] at [octave * 12 + o] for the snap offset
    [o] of the semitone. *)
Lemma quantizer_exit_snaps (s : scale) (val : Z) :
  exists o, exit_index (quantizer_exit s val) = Z.quot val 12 * 12 + o /\
            snap_offset (steps_of s) (Z.rem val 12) o.
Proof.
  apply (scan_snaps (steps_of s) _ _ (fallback_of s)
           (steps_length s) (steps_increasing s) (fallback_largest s)).
  reflexivity.
Qed.

Lemma quantizer_reads_exit (s : scale) (val : Z) :
  quantizer s val = array_get tuningValues (exit_index (quantizer_exit s val)).
Proof. destruct s; reflexivity. Qed.

Lemma snap_offset_in (steps : list Z) (semitone o : Z) :
  snap_offset steps semitone o -> In o steps.
Proof. intros [(H & _) | (_ & H & _)]; exact H. Qed.

(** Octave and semitone of an input of the documented range. *)
Lemma in_range_decompose (val : Z) :
  in_range val ->
  val = Z.quot val 12 * 12 + Z.rem val 12 /\
  0 <= Z.rem val 12 <= 11 /\
  (val = 36 /\ Z.quot val 12 = 3 \/ 0 <= Z.quot val 12 <= 2).
Proof.
  unfold in_range. rewrite totalNotes_value. intros Hr.
  pose proof (Z.quot_rem' val 12) as Hqr.
  pose proof (Z.rem_bound_pos val 12 ltac:(lia) ltac:(lia)) as Hrem.
  pose proof (Z.quot_pos val 12 ltac:(lia) ltac:(lia)) as Hquot.
  repeat split; lia.
Qed.

(** On the documented range the index read is inside the table. *)
Lemma exit_index_in_table (s : scale) (val : Z) :
  in_range val -> 0 <= exit_index (quantizer_exit s val) <= totalNotes - 1.
Proof.
  intros Hr. rewrite totalNotes_value.
  destruct (in_range_decompose val Hr) as (Hval & Hrem & [[-> _] | Hoct]).
  - destruct s; cbn; lia.
  - destruct (quantizer_exit_snaps s val) as (o & -> & Hsnap).
    apply snap_offset_in in Hsnap.
    pose proof (steps_bounds s) as Hb. rewrite Forall_forall in Hb.
    specialize (Hb _ Hsnap). lia.
Qed.

Lemma quantizer_defined (s : scale) (val : Z) :
  in_range val ->
  exists v, array_get tuningValues (exit_index (quantizer_exit s val)) = Some v /\
            quantizer s val = Some v.
Proof.
  intros Hr. pose proof (exit_index_in_table s val Hr) as Hi.
  destruct (array_get_in_bounds tuningValues (exit_index (quantizer_exit s val)))
    as [v Hv].
  - fold totalNotes. lia.
  - exists v. rewrite quantizer_reads_exit. auto.
Qed.

(** * Properties of the quantizers *)

(** C1: for every [val] of [0 .. totalNotes-1] and each of the three
    quantizers, the call returns [tuningValues[octave*12 + o]], with
    [octave = val / 12], [semitone = val % 12] and [o] the smallest offset of
    the scale that is at least [semitone] when there is one, the largest
    offset of the scale otherwise. *)
Theorem quantizer_snaps_to_scale (s : scale) (val : Z) :
  in_range val ->
  exists o v,
    snap_offset (steps_of s) (Z.rem val 12) o /\
    array_get tuningValues (Z.quot val 12 * 12 + o) = Some v /\
    quantizer s val = Some v.
Proof.
  intros Hr.
  destruct (quantizer_exit_snaps s val) as (o & Hidx & Hsnap).
  destruct (quantizer_defined s val Hr) as (v & Hread & Hq).
  exists o, v. rewrite <- Hidx. auto.
Qed.

(** [quantizeToMinor(11)] falls back to offset 10. *)
Lemma quantizer_snaps_to_scale_witness :
  in_range 11 /\
  exists o v,
    snap_offset minorSteps (Z.rem 11 12) o /\
    array_get tuningValues (Z.quot 11 12 * 12 + o) = Some v /\
    quantizeToMinor 11 = Some v.
Proof.
  split; [solve_in_range |].
  apply (quantizer_snaps_to_scale Minor 11). solve_in_range.
Defined.

(** C2: for every [val] of [0 .. totalNotes-1] and each of the three
    quantizers, the index [octave*12 + offset] at which the call reads the
    tuning table lies in [0 .. totalNotes-1], and the call returns the entry
    of the table at that index. *)
Theorem quantizer_reads_inside_table (s : scale) (val : Z) :
  in_range val ->
  exists i v,
    exit_index (quantizer_exit s val) = i /\
    (exists o, In o (steps_of s) /\ i = Z.quot val 12 * 12 + o) /\
    0 <= i <= totalNotes - 1 /\
    nth_error tuningValues (Z.to_nat i) = Some v /\
    quantizer s val = Some v.
Proof.
  intros Hr.
  destruct (quantizer_defined s val Hr) as (v & Hread & Hq).
  exists (exit_index (quantizer_exit s val)), v.
  split; [reflexivity |]. split; [| split; [| split]]; auto.
  - destruct (quantizer_exit_snaps s val) as (o & Hidx & Hsnap).
    exists o. split; auto. eapply snap_offset_in; eauto.
  - apply exit_index_in_table; auto.
  - apply array_get_Some in Hread. tauto.
Qed.

Lemma quantizer_reads_inside_table_witness :
  in_range 36 /\
  exists i v,
    exit_index (quantizer_exit Phrygian 36) = i /\
    (exists o, In o phrygianSteps /\ i = Z.quot 36 12 * 12 + o) /\
    0 <= i <= totalNotes - 1 /\
    nth_error tuningValues (Z.to_nat i) = Some v /\
    quantizeToPhrygian 36 = Some v.
Proof.
  split; [solve_in_range |].
  apply (quantizer_reads_inside_table Phrygian 36). solve_in_range.
Defined.

(** C3, as the code has it: [quantizeToMajor(1)] returns 15, the entry of
    the table at index 2 (semitone 1 rounds up to the major offset 2). *)
Theorem quantizeToMajor_1 :
  quantizeToMajor 1 = Some 15 /\
  quantizer_exit Major 1 = ReturnInLoop 1 2 /\
  array_get tuningValues 2 = Some 15.
Proof. repeat split. Qed.

(** C3, as stated, fails: [quantizeToMajor(1)] does not return 11. *)
Lemma quantizeToMajor_1_is_not_11 : quantizeToMajor 1 <> Some 11.
Proof. cbv. discriminate. Qed.

(** A semitone that belongs to the scale is its own snap offset. *)
Lemma snap_offset_member (steps : list Z) (semitone o : Z) :
  In semitone steps -> snap_offset steps semitone o -> o = semitone.
Proof.
  unfold snap_offset, smallest_at_or_above, none_at_or_above.
  rewrite !Forall_forall.
  intros Hin [(_ & Hle & Hmin) | (Hnone & _)].
  - specialize (Hmin _ Hin). lia.
  - specialize (Hnone _ Hin). lia.
Qed.

(** C4: for every [val] of [0 .. totalNotes-1] and each of the three
    quantizers, when [semitone = val % 12] belongs to the scale the call
    returns [tuningValues[(val / 12)*12 + semitone]], which is
    [tuningValues[val]]; in particular [quantizeToMajor(0)] is 0 and
    [quantizeToPhrygian(12)] is [tuningValues[12]], 57. *)
Theorem quantizer_exact_match :
  (forall (s : scale) (val : Z),
      in_range val ->
      In (Z.rem val 12) (steps_of s) ->
      exists v,
        array_get tuningValues (Z.quot val 12 * 12 + Z.rem val 12) = Some v /\
        array_get tuningValues val = Some v /\
        quantizer s val = Some v) /\
  quantizeToMajor 0 = Some 0 /\
  quantizeToPhrygian 12 = Some 57 /\
  array_get tuningValues 12 = Some 57.
Proof.
  split; [| repeat split].
  intros s val Hr Hin.
  destruct (quantizer_exit_snaps s val) as (o & Hidx & Hsnap).
  destruct (quantizer_defined s val Hr) as (v & Hread & Hq).
  apply (snap_offset_member _ _ _ Hin) in Hsnap. subst o.
  destruct (in_range_decompose val Hr) as (Hval & _).
  exists v. rewrite Hidx in Hread.
  split; [exact Hread |]. split; [| exact Hq].
  rewrite <- Hval in Hread. exact Hread.
Qed.

Lemma quantizer_exact_match_witness :
  in_range 27 /\ In (Z.rem 27 12) minorSteps /\
  exists v,
    array_get tuningValues (Z.quot 27 12 * 12 + Z.rem 27 12) = Some v /\
    array_get tuningValues 27 = Some v /\
    quantizeToMinor 27 = Some v.
Proof.
  assert (Hr : in_range 27) by solve_in_range.
  assert (Hin : In (Z.rem 27 12) minorSteps) by (cbn; auto).
  split; [exact Hr |]. split; [exact Hin |].
  exact (proj1 quantizer_exact_match Minor 27 Hr Hin).
Defined.

(** C5: for each of the three quantizers and every octave [k] with [12*k]
    and [12*k+11] in [0 .. totalNotes-1], the values returned for
    [val = 12*k, 12*k+1, ..., 12*k+11] are non-decreasing. *)
Theorem quantizer_monotone_in_octave (s : scale) (k a b : Z) :
  in_range (12 * k) -> in_range (12 * k + 11) ->
  0 <= a -> a <= b -> b <= 11 ->
  exists va vb,
    quantizer s (12 * k + a) = Some va /\
    quantizer s (12 * k + b) = Some vb /\
    va <= vb.
Proof.
  intros Hlo Hhi Ha Hab Hb.
  assert (Hra : in_range (12 * k + a)) by (unfold in_range in *; lia).
  assert (Hrb : in_range (12 * k + b)) by (unfold in_range in *; lia).
  destruct (quantizer_defined s _ Hra) as (va & Hreada & Hqa).
  destruct (quantizer_defined s _ Hrb) as (vb & Hreadb & Hqb).
  exists va, vb. split; [exact Hqa |]. split; [exact Hqb |].
  destruct (quantizer_exit_snaps s (12 * k + a)) as (oa & Hia & Hsa).
  destruct (quantizer_exit_snaps s (12 * k + b)) as (ob & Hib & Hsb).
  destruct (in_range_decompose _ Hra) as (Hvala & Hrema & _).
  destruct (in_range_decompose _ Hrb) as (Hvalb & Hremb & _).
  assert (Z.quot (12 * k + a) 12 = k /\ Z.rem (12 * k + a) 12 = a) as [Eqa Era]
      by lia.
  assert (Z.quot (12 * k + b) 12 = k /\ Z.rem (12 * k + b) 12 = b) as [Eqb Erb]
      by lia.
  rewrite Eqa in Hia. rewrite Era in Hsa.
  rewrite Eqb in Hib. rewrite Erb in Hsb.
  pose proof (snap_offset_monotone _ _ _ _ _ Hsa Hsb Hab) as Ho.
  apply (tuningValues_le _ _ _ _ Hreada Hreadb). lia.
Qed.

Lemma quantizer_monotone_in_octave_witness :
  in_range (12 * 2) /\ in_range (12 * 2 + 11) /\
  exists va vb,
    quantizeToMinor (12 * 2 + 10) = Some va /\
    quantizeToMinor (12 * 2 + 11) = Some vb /\
    va <= vb.
Proof.
  split; [solve_in_range |]. split; [solve_in_range |].
  apply (quantizer_monotone_in_octave Minor 2 10 11); try lia; solve_in_range.
Defined.

(** C6: the three quantizers use the offsets major 0,2,4,5,7,9,11, natural
    minor 0,2,3,5,7,8,10 and Phrygian 0,1,3,5,7,8,10; each is a strictly
    increasing sequence of 7 distinct integers of [0 .. 11], and the offset
    of each function's last [return], [fallback_of], is the maximum of its
    scale: 11 for major, 10 for minor and Phrygian. *)
Theorem scale_offset_sets :
  (forall val, quantizeToMajor val = quantize [0; 2; 4; 5; 7; 9; 11] 11 val) /\
  (forall val, quantizeToMinor val = quantize [0; 2; 3; 5; 7; 8; 10] 10 val) /\
  (forall val, quantizeToPhrygian val = quantize [0; 1; 3; 5; 7; 8; 10] 10 val) /\
  max_offset majorSteps = 11 /\
  max_offset minorSteps = 10 /\
  max_offset phrygianSteps = 10 /\
  fallback_of Major = 11 /\
  fallback_of Minor = 10 /\
  fallback_of Phrygian = 10 /\
  forall s : scale,
    length (steps_of s) = 7%nat /\
    StronglySorted Z.lt (steps_of s) /\
    NoDup (steps_of s) /\
    Forall (fun o => 0 <= o <= 11) (steps_of s) /\
    largest_offset (steps_of s) (max_offset (steps_of s)) /\
    (forall val,
        quantizer s val = quantize (steps_of s) (max_offset (steps_of s)) val) /\
    fallback_of s = max_offset (steps_of s) /\
    largest_offset (steps_of s) (fallback_of s) /\
    (forall val,
        quantizer_exit s val = quantize_exit (steps_of s) (fallback_of s) val) /\
    (forall val,
        quantizer s val = quantize (steps_of s) (fallback_of s) val).
Proof.
  do 9 (split; [reflexivity |]).
  intros s.
  assert (Hmax : fallback_of s = max_offset (steps_of s))
    by (destruct s; reflexivity).
  split; [apply steps_length |].
  split; [apply steps_increasing |].
  split; [destruct s; cbn; repeat constructor; cbn; intuition lia |].
  split; [apply steps_bounds |].
  split; [rewrite <- Hmax; apply fallback_largest |].
  split; [destruct s; reflexivity |].
  split; [exact Hmax |].
  split; [apply fallback_largest |].
  split; [reflexivity |].
  destruct s; reflexivity.
Qed.

(** C7: the tuning table has exactly 37 entries, three octaves of 12
    semitones and one more note; its entries are non-decreasing from index 0
    to index 36; and [totalNotes] is 37, the length of the table. *)
Theorem tuning_table_shape :
  length tuningValues = 37%nat /\
  Z.of_nat (length tuningValues) = 3 * 12 + 1 /\
  StronglySorted Z.le tuningValues /\
  totalNotes = 37 /\
  totalNotes = Z.of_nat (length tuningValues).
Proof.
  split; [reflexivity |]. split; [reflexivity |].
  split; [| split; reflexivity].
  apply Sorted_StronglySorted.
  - intros x y z. apply Z.le_trans.
  - unfold tuningValues. repeat (constructor; try lia).
Qed.

(** C8: for every [val >= 0] the loop of [quantizeToMajor] returns at some
    offset, because [semitone = val % 12] is at most 11 and the last major
    offset is 11; the [return] after the loop is not reached. *)
Theorem major_loop_always_returns (val : Z) :
  0 <= val ->
  Z.rem val 12 <= 11 /\ nth 6 majorSteps 0 = 11 /\
  (exists i, (i < 7)%nat /\
             Z.rem val 12 <= nth i majorSteps 0 /\
             quantize_exit majorSteps 11 val =
               ReturnInLoop i (Z.quot val 12 * 12 + nth i majorSteps 0)) /\
  forall index, quantize_exit majorSteps 11 val <> ReturnAfterLoop index.
Proof.
  intros Hval.
  pose proof (Z.rem_bound_pos val 12 Hval ltac:(lia)) as Hrem.
  split; [lia |]. split; [reflexivity |].
  unfold quantize_exit.
  destruct (for_loop majorSteps (Z.quot val 12) (Z.rem val 12) 0 7)
    as [e |] eqn:Hloop.
  - apply for_loop_returns in Hloop as (j & Hj & -> & Hle & _).
    split; [| discriminate].
    exists j. repeat split; auto. lia.
  - pose proof (for_loop_falls_through _ _ _ _ _ Hloop 6%nat ltac:(lia)) as Hlast.
    cbn in Hlast. lia.
Qed.

Lemma major_loop_always_returns_witness :
  0 <= 35 /\
  (exists i, (i < 7)%nat /\
             Z.rem 35 12 <= nth i majorSteps 0 /\
             quantize_exit majorSteps 11 35 =
               ReturnInLoop i (Z.quot 35 12 * 12 + nth i majorSteps 0)) /\
  forall index, quantize_exit majorSteps 11 35 <> ReturnAfterLoop index.
Proof.
  split; [lia |].
  apply (major_loop_always_returns 35). lia.
Defined.

(** At the top semitone of an octave the minor and Phrygian loops fall
    through and the last [return] reads one entry below the input. *)
Lemma top_semitone_falls_back (steps : list Z) (val : Z) :
  Forall (fun o => o <= 10) steps ->
  0 <= val -> Z.rem val 12 = 11 ->
  quantize_exit steps 10 val = ReturnAfterLoop (val - 1).
Proof.
  intros Hsteps Hval Hrem.
  pose proof (Z.quot_rem' val 12) as Hqr.
  unfold quantize_exit.
  destruct (for_loop steps (Z.quot val 12) (Z.rem val 12) 0 7)
    as [e |] eqn:Hloop.
  - apply for_loop_returns in Hloop as (j & Hj & _ & Hle & _).
    rewrite Forall_forall in Hsteps.
    destruct (nth_in_or_default j steps 0) as [Hin | Hdef].
    + specialize (Hsteps _ Hin). lia.
    + lia.
  - f_equal. lia.
Qed.

(** C9: for every [val] of [0 .. totalNotes-1] with [val % 12 == 11],
    [quantizeToMinor(val)] and [quantizeToPhrygian(val)] both return
    [tuningValues[val - 1]] (the index [(val/12)*12 + 10] of the last
    [return] is [val - 1]), a value strictly below [tuningValues[val]]; and
    these are the only inputs of the range for which one of the three
    quantizers returns a value below the table entry of its input. *)
Theorem minor_phrygian_round_down_at_top (val : Z) :
  in_range val ->
  (Z.rem val 12 = 11 ->
   Z.quot val 12 * 12 + 10 = val - 1 /\
   quantizer_exit Minor val = ReturnAfterLoop (val - 1) /\
   quantizer_exit Phrygian val = ReturnAfterLoop (val - 1) /\
   exists v w,
     array_get tuningValues (val - 1) = Some v /\
     array_get tuningValues val = Some w /\
     quantizeToMinor val = Some v /\
     quantizeToPhrygian val = Some v /\
     v < w) /\
  (forall (s : scale) (v w : Z),
      quantizer s val = Some v ->
      array_get tuningValues val = Some w ->
      v < w ->
      (s = Minor \/ s = Phrygian) /\ Z.rem val 12 = 11).
Proof.
  intros Hr.
  destruct (in_range_decompose val Hr) as (Hdec & Hrem & _).
  assert (Hval : 0 <= val < Z.of_nat (length tuningValues))
    by (unfold in_range, totalNotes in Hr; lia).
  destruct (array_get_in_bounds tuningValues val Hval) as [w Hw].
  split.
  - intros Htop.
    assert (Hmin : quantizer_exit Minor val = ReturnAfterLoop (val - 1)).
    { apply top_semitone_falls_back; try lia.
      cbn; repeat (constructor; try lia). }
    assert (Hphr : quantizer_exit Phrygian val = ReturnAfterLoop (val - 1)).
    { apply top_semitone_falls_back; try lia.
      cbn; repeat (constructor; try lia). }
    split; [lia |]. split; [exact Hmin |]. split; [exact Hphr |].
    destruct (array_get_in_bounds tuningValues (val - 1)) as [v Hv]; [lia |].
    exists v, w. repeat split; auto.
    + rewrite (quantizer_reads_exit Minor), Hmin. exact Hv.
    + rewrite (quantizer_reads_exit Phrygian), Hphr. exact Hv.
    + apply (tuningValues_lt (val - 1) val); auto. lia.
  - intros s v w' Hq Hw' Hlt.
    rewrite quantizer_reads_exit in Hq.
    destruct (quantizer_exit_snaps s val) as (o & Hidx & Hsnap).
    assert (Hbelow : exit_index (quantizer_exit s val) < val).
    { destruct (Z.lt_ge_cases (exit_index (quantizer_exit s val)) val)
        as [Hl | Hg]; [exact Hl |].
      pose proof (tuningValues_le _ _ _ _ Hw' Hq Hg). lia. }
    destruct Hsnap as [(_ & Hle & _) | (Hnone & _)]; [lia |].
    destruct (fallback_largest s) as [Hin _].
    unfold none_at_or_above in Hnone. rewrite Forall_forall in Hnone.
    specialize (Hnone _ Hin).
    destruct s; cbn in Hnone; split; auto; lia.
Qed.

Lemma minor_phrygian_round_down_at_top_witness :
  in_range 23 /\ Z.rem 23 12 = 11 /\
  exists v w,
    array_get tuningValues (23 - 1) = Some v /\
    array_get tuningValues 23 = Some w /\
    quantizeToMinor 23 = Some v /\
    quantizeToPhrygian 23 = Some v /\
    v < w.
Proof.
  assert (Hr : in_range 23) by solve_in_range.
  split; [exact Hr |]. split; [reflexivity |].
  apply (proj1 (minor_phrygian_round_down_at_top 23 Hr) eq_refl).
Defined.

(** Minor and Phrygian scan alike from the semitone 3 up and at or below the
    semitone 0. *)
Lemma minor_phrygian_same_exit (val : Z) :
  Z.rem val 12 <> 1 -> Z.rem val 12 <> 2 ->
  exit_index (quantizer_exit Minor val) = exit_index (quantizer_exit Phrygian val).
Proof.
  intros H1 H2.
  unfold quantizer_exit, quantize_exit.
  generalize dependent (Z.rem val 12). generalize (Z.quot val 12).
  intros octave semitone H1 H2.
  cbv [for_loop nth steps_of fallback_of minorSteps phrygianSteps].
  repeat match goal with
         | |- context [?a <=? ?b] => destruct (Z.leb_spec a b)
         end; try reflexivity; lia.
Qed.

(** C10: for every [val] of [0 .. totalNotes-1] whose semitone [val % 12] is
    neither 1 nor 2, [quantizeToMinor(val)] equals [quantizeToPhrygian(val)];
    the two scales have the same offsets at or above 3 and both contain 0,
    so the two functions can differ only at the semitones 1 and 2. *)
Theorem minor_phrygian_agree (val : Z) :
  in_range val ->
  (Z.rem val 12 <> 1 -> Z.rem val 12 <> 2 ->
   quantizeToMinor val = quantizeToPhrygian val) /\
  (quantizeToMinor val <> quantizeToPhrygian val ->
   Z.rem val 12 = 1 \/ Z.rem val 12 = 2) /\
  filter (Z.leb 3) minorSteps = filter (Z.leb 3) phrygianSteps /\
  In 0 minorSteps /\ In 0 phrygianSteps.
Proof.
  intros _.
  assert (Hagree : Z.rem val 12 <> 1 -> Z.rem val 12 <> 2 ->
                   quantizeToMinor val = quantizeToPhrygian val).
  { intros H1 H2.
    rewrite (quantizer_reads_exit Minor), (quantizer_reads_exit Phrygian).
    f_equal. apply minor_phrygian_same_exit; auto. }
  split; [exact Hagree |]. split.
  - intros Hne.
    destruct (Z.eq_dec (Z.rem val 12) 1) as [E1 | N1]; [auto |].
    destruct (Z.eq_dec (Z.rem val 12) 2) as [E2 | N2]; [auto |].
    elim Hne. auto.
  - split; [reflexivity |]. cbn. auto.
Qed.

Lemma minor_phrygian_agree_witness :
  in_range 15 /\ Z.rem 15 12 <> 1 /\ Z.rem 15 12 <> 2 /\
  quantizeToMinor 15 = quantizeToPhrygian 15.
Proof.
  assert (Hr : in_range 15) by solve_in_range.
  assert (H1 : Z.rem 15 12 <> 1) by (cbn; lia).
  assert (H2 : Z.rem 15 12 <> 2) by (cbn; lia).
  split; [exact Hr |]. split; [exact H1 |]. split; [exact H2 |].
  exact (proj1 (minor_phrygian_agree 15 Hr) H1 H2).
Defined.

(** * Beyond the documented range *)

(** Quotient and remainder of the truncating division by 12. *)
Lemma quot_rem_12 (val : Z) :
  val = Z.quot val 12 * 12 + Z.rem val 12 /\
  (0 <= val -> 0 <= Z.rem val 12 <= 11 /\ 0 <= Z.quot val 12) /\
  (val <= 0 -> -11 <= Z.rem val 12 <= 0 /\ Z.quot val 12 <= 0).
Proof.
  pose proof (Z.quot_rem' val 12) as Hqr.
  pose proof (Z.rem_bound_abs val 12 ltac:(lia)) as Habs.
  pose proof (Z.rem_nonneg val 12 ltac:(lia)) as Hpos.
  pose proof (Z.rem_nonpos val 12 ltac:(lia)) as Hneg.
  lia.
Qed.

Lemma array_get_None (a : list Z) (i : Z) :
  array_get a i = None <-> i < 0 \/ Z.of_nat (length a) <= i.
Proof.
  split.
  - intros Hnone.
    destruct (Z.lt_ge_cases i 0) as [Hneg | Hpos]; [auto |].
    destruct (Z.lt_ge_cases i (Z.of_nat (length a))) as [Hlt | Hge]; [| auto].
    destruct (array_get_in_bounds a i) as [v Hv]; [lia | congruence].
  - intros Hout.
    destruct (array_get a i) as [v |] eqn:E; [| reflexivity].
    apply array_get_Some in E. lia.
Qed.

(** Runs the scan on an abstract octave and semitone, one case for each
    outcome of the seven comparisons. *)
Ltac scan_cases :=
  cbv [quantizer_exit quantize_exit for_loop nth steps_of fallback_of
       majorSteps minorSteps phrygianSteps];
  repeat match goal with
         | |- context [?a <=? ?b] => destruct (Z.leb_spec a b)
         end;
  cbn [exit_index].

(** Where the scan lands, for an octave [q] and a semitone [r]. *)
Lemma scan_shape (s : scale) (q r : Z) :
  let index :=
    exit_index
      match for_loop (steps_of s) q r 0 7 with
      | Some e => e
      | None => ReturnAfterLoop (q * 12 + fallback_of s)
      end in
  (r <= 0 -> index = q * 12) /\
  (0 <= r <= 11 ->
   q * 12 + r <= index <= q * 12 + r + 1 \/
   (s <> Major /\ r = 11 /\ index = q * 12 + 10)).
Proof.
  destruct s; scan_cases; split; intros Hr; try lia;
    try (right; split; [discriminate | lia]).
Qed.

(** The index read, for any [val]. *)
Lemma exit_index_shape (s : scale) (val : Z) :
  (val <= 0 -> exit_index (quantizer_exit s val) = Z.quot val 12 * 12) /\
  (0 <= val ->
   val <= exit_index (quantizer_exit s val) <= val + 1 \/
   (s <> Major /\ Z.rem val 12 = 11 /\
    exit_index (quantizer_exit s val) = val - 1)).
Proof.
  destruct (quot_rem_12 val) as (Hval & Hpos & Hneg).
  destruct (scan_shape s (Z.quot val 12) (Z.rem val 12)) as [Hlow Hup].
  cbv zeta in Hlow, Hup.
  fold (quantize_exit (steps_of s) (fallback_of s) val) in Hlow, Hup.
  fold (quantizer_exit s val) in Hlow, Hup.
  split; intros Hsign.
  - apply Hlow. lia.
  - destruct Hup as [Hin | (Hs & Hr & Hi)]; [lia | left; lia |].
    right. repeat split; auto; lia.
Qed.

(** X1: a quantizer reads inside the tuning table exactly for the inputs
    from -11 to [totalNotes - 1]; for every other [val], above the range or
    at -12 and below, the index read is outside the table. *)
Theorem quantizer_defined_domain (s : scale) (val : Z) :
  quantizer s val = None <-> val < -11 \/ totalNotes - 1 < val.
Proof.
  rewrite quantizer_reads_exit, array_get_None.
  fold totalNotes. rewrite totalNotes_value.
  destruct (quot_rem_12 val) as (Hval & Hpos & Hneg).
  destruct (exit_index_shape s val) as [Hlow Hup].
  destruct (Z.le_gt_cases val 0) as [Hle | Hgt].
  - rewrite (Hlow Hle). lia.
  - destruct (Z.le_gt_cases val 36) as [Hin | Hout].
    + pose proof (exit_index_in_table s val ltac:(solve_in_range)) as Hi.
      rewrite totalNotes_value in Hi. lia.
    + destruct (Hup ltac:(lia)) as [Hi | (_ & Hr & Hi)]; lia.
Qed.

(** X2: for every [val] from -11 to 0 the three quantizers leave at the
    first iteration of the loop and return [tuningValues[0]], which is 0:
    a negative semitone is at or below the first offset of every scale. *)
Theorem quantizer_just_below_zero (s : scale) (val : Z) :
  -11 <= val <= 0 ->
  quantizer_exit s val = ReturnInLoop 0 0 /\ quantizer s val = Some 0.
Proof.
  intros Hval.
  destruct (quot_rem_12 val) as (Hdec & _ & Hneg).
  assert (Hexit : quantizer_exit s val = ReturnInLoop 0 0).
  { unfold quantizer_exit, quantize_exit.
    replace (Z.quot val 12) with 0 by lia.
    destruct s; cbn [for_loop steps_of nth majorSteps minorSteps phrygianSteps];
      destruct (Z.leb_spec (Z.rem val 12) 0); try lia; reflexivity. }
  split; [exact Hexit |].
  rewrite quantizer_reads_exit, Hexit. reflexivity.
Qed.

Lemma quantizer_just_below_zero_witness :
  -11 <= -5 <= 0 /\
  quantizer_exit Minor (-5) = ReturnInLoop 0 0 /\ quantizeToMinor (-5) = Some 0.
Proof.
  split; [lia |].
  apply (quantizer_just_below_zero Minor (-5)). lia.
Defined.

(** X3: for every [val >= 0] the index read is [val] or [val + 1], except
    at the top semitone 11 of the minor and Phrygian scales, where it is
    [val - 1]: a quantizer never moves the note by more than one semitone,
    and [quantizeToMajor] never moves it down.  The index is [val] when the
    semitone is an offset of the scale and [val + 1] when it is not. *)
Theorem quantizer_moves_one_semitone (s : scale) (val : Z) :
  0 <= val ->
  ((s = Minor \/ s = Phrygian) /\ Z.rem val 12 = 11 ->
   exit_index (quantizer_exit s val) = val - 1) /\
  (~ ((s = Minor \/ s = Phrygian) /\ Z.rem val 12 = 11) ->
   val <= exit_index (quantizer_exit s val) <= val + 1) /\
  (In (Z.rem val 12) (steps_of s) ->
   exit_index (quantizer_exit s val) = val) /\
  (~ In (Z.rem val 12) (steps_of s) ->
   ~ ((s = Minor \/ s = Phrygian) /\ Z.rem val 12 = 11) ->
   exit_index (quantizer_exit s val) = val + 1) /\
  (val <= exit_index (quantizer_exit s val) <= val + 1 \/
   ((s = Minor \/ s = Phrygian) /\ Z.rem val 12 = 11 /\
    exit_index (quantizer_exit s val) = val - 1)) /\
  (s = Major -> val <= exit_index (quantizer_exit s val)).
Proof.
  intros Hval.
  destruct (quot_rem_12 val) as (Hdec & Hpos & _).
  destruct (exit_index_shape s val) as [_ Hup].
  assert (Htop : (s = Minor \/ s = Phrygian) /\ Z.rem val 12 = 11 ->
                 exit_index (quantizer_exit s val) = val - 1).
  { intros [[-> | ->] Hr]; unfold quantizer_exit; cbn [steps_of fallback_of];
      rewrite top_semitone_falls_back; auto;
      repeat (constructor; try lia). }
  assert (Hmember : In (Z.rem val 12) (steps_of s) ->
                    exit_index (quantizer_exit s val) = val).
  { intros Hin.
    destruct (quantizer_exit_snaps s val) as (o & Hidx & Hsnap).
    apply (snap_offset_member _ _ _ Hin) in Hsnap. lia. }
  assert (Hother : ~ In (Z.rem val 12) (steps_of s) ->
                   val <= exit_index (quantizer_exit s val) ->
                   exit_index (quantizer_exit s val) <> val).
  { intros Hnot _ Heq.
    destruct (quantizer_exit_snaps s val) as (o & Hidx & Hsnap).
    apply snap_offset_in in Hsnap.
    replace o with (Z.rem val 12) in Hsnap by lia. contradiction. }
  split; [exact Htop |].
  split.
  { intros Hnot. destruct (Hup Hval) as [Hi | (Hs & Hr & Hi)]; [exact Hi |].
    elim Hnot. split; [destruct s; auto; contradiction | exact Hr]. }
  split; [exact Hmember |].
  split.
  { intros Hnotin Hnot. destruct (Hup Hval) as [Hi | (Hs & Hr & Hi)].
    - specialize (Hother Hnotin ltac:(lia)). lia.
    - elim Hnot. split; [destruct s; auto; contradiction | exact Hr]. }
  destruct (Hup Hval) as [Hi | (Hs & Hr & Hi)].
  - split; [left; exact Hi | intros _; lia].
  - split; [| intros ->; contradiction].
    right. repeat split; auto.
    destruct s; auto; contradiction.
Qed.

(** At [val = 23], semitone 11, [quantizeToMinor] reads index 22. *)
Lemma quantizer_moves_one_semitone_witness :
  0 <= 23 /\ ((Minor = Minor \/ Minor = Phrygian) /\ Z.rem 23 12 = 11) /\
  exit_index (quantizer_exit Minor 23) = 23 - 1.
Proof.
  assert (Hval : 0 <= 23) by lia.
  assert (Htop : (Minor = Minor \/ Minor = Phrygian) /\ Z.rem 23 12 = 11)
    by (split; [left |]; reflexivity).
  split; [exact Hval |]. split; [exact Htop |].
  exact (proj1 (quantizer_moves_one_semitone Minor 23 Hval) Htop).
Defined.

(** X4: for any [val], negative ones included, the [return] after the loop
    is reached exactly when the scale is minor or Phrygian and [val % 12] is
    11; [quantizeToMajor] never reaches it. *)
Theorem fallback_reached_iff (s : scale) (val : Z) :
  (exists index, quantizer_exit s val = ReturnAfterLoop index) <->
  (s = Minor \/ s = Phrygian) /\ Z.rem val 12 = 11.
Proof.
  destruct (quot_rem_12 val) as (_ & Hpos & Hneg).
  assert (Hr : -11 <= Z.rem val 12 <= 11)
    by (destruct (Z.le_gt_cases 0 val); lia).
  unfold quantizer_exit, quantize_exit.
  generalize dependent (Z.rem val 12). generalize (Z.quot val 12).
  intros q r _ _ Hr.
  destruct s; scan_cases; try (exfalso; lia); split;
    try (intros [index Hex]; discriminate Hex);
    try (intros [[Hs | Hs] Hr']; discriminate Hs);
    try (intros [_ Hr']; lia);
    try (intros _; split; [auto | lia]);
    try (intros _; eexists; reflexivity).
Qed.

(** * The note a quantizer picks *)

Lemma zero_in_steps (s : scale) : In 0 (steps_of s).
Proof. destruct s; cbn; auto. Qed.

(** The index read lies in the octave of the input, on a note of the
    scale. *)
Lemma exit_index_note (s : scale) (val : Z) :
  Z.quot (exit_index (quantizer_exit s val)) 12 = Z.quot val 12 /\
  In (Z.rem (exit_index (quantizer_exit s val)) 12) (steps_of s).
Proof.
  destruct (Z.le_gt_cases val 0) as [Hle | Hgt].
  - destruct (exit_index_shape s val) as [Hlow _].
    rewrite (Hlow Hle), Z.quot_mul, Z.rem_mul by lia.
    split; [reflexivity | apply zero_in_steps].
  - destruct (quantizer_exit_snaps s val) as (o & Hidx & Hsnap).
    apply snap_offset_in in Hsnap.
    pose proof (steps_bounds s) as Hb. rewrite Forall_forall in Hb.
    specialize (Hb _ Hsnap).
    destruct (quot_rem_12 val) as (_ & Hpos & _).
    destruct (quot_rem_12 (exit_index (quantizer_exit s val)))
      as (Hdec & Hipos & _).
    assert (Hq : Z.quot (exit_index (quantizer_exit s val)) 12 = Z.quot val 12)
      by lia.
    split; [exact Hq |].
    replace (Z.rem (exit_index (quantizer_exit s val)) 12) with o by lia.
    exact Hsnap.
Qed.

(** X5: for any [val] the index read lies in the octave of [val]: its
    quotient by 12 is [val / 12], also when the loop falls through. *)
Theorem quantizer_keeps_octave (s : scale) (val : Z) :
  Z.quot (exit_index (quantizer_exit s val)) 12 = Z.quot val 12.
Proof. apply exit_index_note. Qed.

(** X6: quantizing the index a quantizer has picked picks it again, for any
    [val]: the index read is a fixed point of the function's choice, and the
    second call returns what the first returned. *)
Theorem quantizer_idempotent (s : scale) (val : Z) :
  exit_index (quantizer_exit s (exit_index (quantizer_exit s val))) =
    exit_index (quantizer_exit s val) /\
  quantizer s (exit_index (quantizer_exit s val)) = quantizer s val.
Proof.
  set (index := exit_index (quantizer_exit s val)).
  assert (Hfix : exit_index (quantizer_exit s index) = index).
  { destruct (exit_index_note s val) as [_ Hnote]. fold index in Hnote.
    destruct (quantizer_exit_snaps s index) as (o & Hidx & Hsnap).
    apply (snap_offset_member _ _ _ Hnote) in Hsnap. subst o.
    destruct (quot_rem_12 index) as (Hdec & _). lia. }
  split; [exact Hfix |].
  rewrite (quantizer_reads_exit s index), Hfix.
  symmetry. apply quantizer_reads_exit.
Qed.

(** X7: over the whole range [0 .. totalNotes-1] each quantizer is
    non-decreasing, across octaves too: a larger input never gives a smaller
    value. *)
Theorem quantizer_monotone (s : scale) (val1 val2 : Z) :
  in_range val1 -> in_range val2 -> val1 <= val2 ->
  exists v1 v2,
    quantizer s val1 = Some v1 /\ quantizer s val2 = Some v2 /\ v1 <= v2.
Proof.
  intros Hr1 Hr2 Hle.
  destruct (quantizer_defined s _ Hr1) as (v1 & Hread1 & Hq1).
  destruct (quantizer_defined s _ Hr2) as (v2 & Hread2 & Hq2).
  exists v1, v2. split; [exact Hq1 |]. split; [exact Hq2 |].
  apply (tuningValues_le _ _ _ _ Hread1 Hread2).
  destruct (quantizer_exit_snaps s val1) as (o1 & -> & Hs1).
  destruct (quantizer_exit_snaps s val2) as (o2 & -> & Hs2).
  pose proof (steps_bounds s) as Hb. rewrite Forall_forall in Hb.
  pose proof (Hb _ (snap_offset_in _ _ _ Hs1)) as Ho1.
  pose proof (Hb _ (snap_offset_in _ _ _ Hs2)) as Ho2.
  destruct (in_range_decompose _ Hr1) as (Hd1 & Hrem1 & _).
  destruct (in_range_decompose _ Hr2) as (Hd2 & Hrem2 & _).
  destruct (Z.eq_dec (Z.quot val1 12) (Z.quot val2 12)) as [Heq | Hne].
  - rewrite Heq.
    pose proof (snap_offset_monotone _ _ _ _ _ Hs1 Hs2 ltac:(lia)). lia.
  - lia.
Qed.

Lemma quantizer_monotone_witness :
  in_range 11 /\ in_range 12 /\
  exists v1 v2,
    quantizeToPhrygian 11 = Some v1 /\ quantizeToPhrygian 12 = Some v2 /\
    v1 <= v2.
Proof.
  split; [solve_in_range |]. split; [solve_in_range |].
  apply (quantizer_monotone Phrygian 11 12); try lia; solve_in_range.
Defined.

(** Two reads of the table that give the same value are reads of the same
    entry. *)
Lemma tuningValues_injective (i j v : Z) :
  array_get tuningValues i = Some v -> array_get tuningValues j = Some v ->
  i = j.
Proof.
  intros Hi Hj.
  destruct (Z.lt_trichotomy i j) as [Hlt | [Heq | Hgt]]; [| exact Heq |].
  - pose proof (tuningValues_lt _ _ _ _ Hi Hj Hlt). lia.
  - pose proof (tuningValues_lt _ _ _ _ Hj Hi Hgt). lia.
Qed.

(** X8: over the range [0 .. totalNotes-1] the values a quantizer returns
    are exactly the entries of the tuning table at the notes of its scale:
    every returned value is [tuningValues[i]] for an [i] of the range with
    [i % 12] in the scale, and every such entry is returned for some input
    of the range. *)
Theorem quantizer_image (s : scale) (v : Z) :
  (exists val, in_range val /\ quantizer s val = Some v) <->
  (exists i, in_range i /\ In (Z.rem i 12) (steps_of s) /\
             array_get tuningValues i = Some v).
Proof.
  split.
  - intros (val & Hr & Hq).
    exists (exit_index (quantizer_exit s val)).
    split; [apply exit_index_in_table; exact Hr |].
    split; [apply exit_index_note |].
    rewrite <- quantizer_reads_exit. exact Hq.
  - intros (i & Hr & Hnote & Hread).
    exists i. split; [exact Hr |].
    destruct (quantizer_exit_snaps s i) as (o & Hidx & Hsnap).
    apply (snap_offset_member _ _ _ Hnote) in Hsnap. subst o.
    destruct (quot_rem_12 i) as (Hdec & _).
    rewrite quantizer_reads_exit, Hidx, <- Hdec. exact Hread.
Qed.

(** X9: every value returned for an input of [0 .. totalNotes-1] lies
    between the first and the last entry of the tuning table, 0 and 157. *)
Theorem quantizer_value_bounds (s : scale) (val : Z) :
  in_range val ->
  exists v, quantizer s val = Some v /\ 0 <= v <= 157.
Proof.
  intros Hr.
  destruct (quantizer_defined s val Hr) as (v & Hread & Hq).
  pose proof (exit_index_in_table s val Hr) as Hi.
  rewrite totalNotes_value in Hi.
  exists v. split; [exact Hq |]. split.
  - apply (tuningValues_le 0 _ 0 v eq_refl Hread). lia.
  - apply (tuningValues_le _ 36 v 157 Hread eq_refl). lia.
Qed.

Lemma quantizer_value_bounds_witness :
  in_range 36 /\ exists v, quantizeToMajor 36 = Some v /\ 0 <= v <= 157.
Proof.
  split; [solve_in_range |].
  apply (quantizer_value_bounds Major 36). solve_in_range.
Defined.

(** X10: the returned value identifies the note: when two calls on inputs
    of [0 .. totalNotes-1], of the same quantizer or of two of them, return
    the same value, they have read the same index of the tuning table. *)
Theorem quantizer_value_identifies_note (s1 s2 : scale) (val1 val2 : Z) :
  in_range val1 -> in_range val2 ->
  quantizer s1 val1 = quantizer s2 val2 ->
  exit_index (quantizer_exit s1 val1) = exit_index (quantizer_exit s2 val2).
Proof.
  intros Hr1 Hr2 Heq.
  destruct (quantizer_defined s1 _ Hr1) as (v1 & Hread1 & Hq1).
  destruct (quantizer_defined s2 _ Hr2) as (v2 & Hread2 & Hq2).
  assert (v1 = v2) by congruence. subst v2.
  apply (tuningValues_injective _ _ v1); assumption.
Qed.

Lemma quantizer_value_identifies_note_witness :
  in_range 13 /\ in_range 14 /\
  quantizeToMajor 13 = quantizeToMinor 14 /\
  exit_index (quantizer_exit Major 13) = exit_index (quantizer_exit Minor 14).
Proof.
  assert (H1 : in_range 13) by solve_in_range.
  assert (H2 : in_range 14) by solve_in_range.
  assert (He : quantizeToMajor 13 = quantizeToMinor 14) by reflexivity.
  split; [exact H1 |]. split; [exact H2 |]. split; [exact He |].
  exact (quantizer_value_identifies_note Major Minor 13 14 H1 H2 He).
Defined.

(** X11: at the semitones 1 and 2 of every octave of [0 .. totalNotes-1],
    [quantizeToMinor] and [quantizeToPhrygian] return different values:
    minor reads offset 2 for both, Phrygian reads offset 1 and offset 3. *)
Theorem minor_phrygian_differ (val : Z) :
  in_range val ->
  Z.rem val 12 = 1 \/ Z.rem val 12 = 2 ->
  quantizeToMinor val <> quantizeToPhrygian val.
Proof.
  intros Hr Hsem Heq.
  destruct (quantizer_defined Minor _ Hr) as (v1 & Hread1 & Hq1).
  destruct (quantizer_defined Phrygian _ Hr) as (v2 & Hread2 & Hq2).
  cbn [quantizer] in Hq1, Hq2.
  assert (v1 = v2) by congruence. subst v2.
  pose proof (tuningValues_injective _ _ _ Hread1 Hread2) as Hsame.
  revert Hsame. clear - Hsem.
  unfold quantizer_exit, quantize_exit.
  generalize dependent (Z.rem val 12). generalize (Z.quot val 12).
  intros q r Hsem. scan_cases; lia.
Qed.

Lemma minor_phrygian_differ_witness :
  in_range 25 /\ (Z.rem 25 12 = 1 \/ Z.rem 25 12 = 2) /\
  quantizeToMinor 25 <> quantizeToPhrygian 25.
Proof.
  assert (Hr : in_range 25) by solve_in_range.
  assert (Hs : Z.rem 25 12 = 1 \/ Z.rem 25 12 = 2) by (left; reflexivity).
  split; [exact Hr |]. split; [exact Hs |].
  exact (minor_phrygian_differ 25 Hr Hs).
Defined.

(** * Integer arithmetic *)

(** X12: with a 16-bit or a 32-bit [int], no input makes the arithmetic of
    a quantizer leave the range of [int]: [val / 12], [val % 12],
    [octave * 12] and the index [octave * 12 + offset] of the [return]
    taken are all values of [int], so the integer model loses nothing
    to wrap-around or overflow. *)
Theorem quantizer_int_arithmetic (bits : Z) (s : scale) (val : Z) :
  bits = 16 \/ bits = 32 ->
  int_fits bits val ->
  int_fits bits (Z.quot val 12) /\
  int_fits bits (Z.rem val 12) /\
  int_fits bits (Z.quot val 12 * 12) /\
  int_fits bits (exit_index (quantizer_exit s val)).
Proof.
  intros Hbits Hval.
  destruct (quot_rem_12 val) as (Hdec & Hpos & Hneg).
  destruct (exit_index_shape s val) as [Hlow Hup].
  assert (Htop16 : exit_index (quantizer_exit s 32767) = 32767)
    by (destruct s; reflexivity).
  assert (Htop32 : exit_index (quantizer_exit s 2147483647) = 2147483647)
    by (destruct s; reflexivity).
  unfold int_fits in *.
  destruct Hbits as [-> | ->].
  - change (2 ^ (16 - 1)) with 32768 in *.
    destruct (Z.eq_dec val 32767) as [-> | Hne]; [rewrite Htop16; cbn; lia |].
    destruct (Z.le_gt_cases val 0) as [Hle | Hgt].
    + rewrite (Hlow Hle). lia.
    + destruct (Hup ltac:(lia)) as [Hi | (_ & _ & Hi)]; lia.
  - change (2 ^ (32 - 1)) with 2147483648 in *.
    destruct (Z.eq_dec val 2147483647) as [-> | Hne];
      [rewrite Htop32; cbn; lia |].
    destruct (Z.le_gt_cases val 0) as [Hle | Hgt].
    + rewrite (Hlow Hle). lia.
    + destruct (Hup ltac:(lia)) as [Hi | (_ & _ & Hi)]; lia.
Qed.

Lemma quantizer_int_arithmetic_witness :
  (16 = 16 \/ 16 = 32) /\ int_fits 16 32766 /\
  int_fits 16 (Z.quot 32766 12) /\
  int_fits 16 (Z.rem 32766 12) /\
  int_fits 16 (Z.quot 32766 12 * 12) /\
  int_fits 16 (exit_index (quantizer_exit Major 32766)).
Proof.
  assert (Hb : 16 = 16 \/ 16 = 32) by (left; reflexivity).
  assert (Hv : int_fits 16 32766) by (unfold int_fits; cbn; lia).
  split; [exact Hb |]. split; [exact Hv |].
  exact (quantizer_int_arithmetic 16 Major 32766 Hb Hv).
Defined.
